(** * Cursor registry of nsTObserverArray_base and the ASCII mask tables

    A shallow embedding of

    - [xpcom/ds/nsTObserverArray.cpp]: [nsTObserverArray_base::AdjustIterators]
      and [nsTObserverArray_base::ClearIterators] (the native branch of the
      [MOZ_RUST_OBSERVER_ARRAY] switch);
    - [xpcom/string/nsASCIIMask.cpp]: the four classification predicates and
      the tables built from them (the native branch of [MOZ_RUST_ASCIIMASK]).

    Iterator objects live in a store indexed by addresses; the two member
    functions are programs of a small state-and-error monad over that store,
    and their [while (iter)] loop is run with fuel. *)

From Stdlib Require Import ZArith Lia Ascii.
From stdpp Require Import base option list gmap strings.

Local Open Scope Z_scope.

(** ** Objects and the store *)

(** An address of an [Iterator_base] object. *)
Definition loc : Type := positive.

(** [Iterator_base*]: [None] is [nullptr]. *)
Definition ptr : Type := option loc.

(** [nsTObserverArray_base::Iterator_base], with its two data members.
    [mPosition] has type [index_type] (a [size_t]); it is kept as the integer
    it denotes. *)
Record Iterator_base : Type := mkIterator {
  mPosition : Z;
  mNext : ptr
}.

(** The data member of [nsTObserverArray_base]: the head of the list of live
    iterators. *)
Record nsTObserverArray_base : Type := mkBase {
  mIterators : ptr
}.

(** The store a member function runs on: the receiver object [*this] and the
    iterator objects allocated at the moment of the call. *)
Record memory : Type := mkMemory {
  this_obj : nsTObserverArray_base;
  cells : gmap loc Iterator_base
}.

Definition set_cells (m : memory) (h : gmap loc Iterator_base) : memory :=
  {| this_obj := this_obj m; cells := h |}.

(** ** Outcomes and the monad of member functions *)

Inductive outcome (A : Type) : Type :=
| Done (a : A)           (* ran to completion *)
| AssertionFailure       (* MOZ_ASSERT fired: the process is aborted *)
| InvalidDeref           (* [iter->...] on an address holding no object *)
| OutOfFuel.             (* the loop was cut off by the step bound *)

Arguments Done {A} a.
Arguments AssertionFailure {A}.
Arguments InvalidDeref {A}.
Arguments OutOfFuel {A}.

Definition M (A : Type) : Type := memory -> outcome (A * memory).

Definition ret {A : Type} (a : A) : M A := fun m => Done (a, m).

Definition bind {A B : Type} (c : M A) (k : A -> M B) : M B :=
  fun m =>
    match c m with
    | Done (a, m') => k a m'
    | AssertionFailure => AssertionFailure
    | InvalidDeref => InvalidDeref
    | OutOfFuel => OutOfFuel
    end.

Definition abort {A : Type} (o : outcome (A * memory)) : M A := fun _ => o.

Notation "'let*' x ':=' c 'in' k" := (bind c (fun x => k))
  (at level 10, x name, c at level 100, k at level 200).
Notation "c ';;;' k" := (bind c (fun _ => k))
  (at level 100, k at level 200, right associativity).

(** [iter->mPosition] as an rvalue. *)
Definition read_mPosition (iter : loc) : M Z :=
  fun m =>
    match cells m !! iter with
    | Some it => Done (mPosition it, m)
    | None => InvalidDeref
    end.

(** [iter->mNext] as an rvalue. *)
Definition read_mNext (iter : loc) : M ptr :=
  fun m =>
    match cells m !! iter with
    | Some it => Done (mNext it, m)
    | None => InvalidDeref
    end.

(** [iter->mPosition = v]: only the position member of that one object is
    written. *)
Definition write_mPosition (iter : loc) (v : Z) : M unit :=
  fun m =>
    match cells m !! iter with
    | Some it =>
        Done (tt, set_cells m (<[iter := {| mPosition := v; mNext := mNext it |}]> (cells m)))
    | None => InvalidDeref
    end.

(** [mIterators] of the receiver. *)
Definition read_mIterators : M ptr :=
  fun m => Done (mIterators (this_obj m), m).

(** Modelled from the spec: the [MOZ_ASSERT] macro of [mozilla/Assertions.h],
    which is not part of the sources at hand.  The specification describes a
    violated assertion as failing fast (assertion/panic) and not as a
    recoverable error, so a false condition ends the run in
    [AssertionFailure]; a true one has no effect. *)
Definition MOZ_ASSERT (cond : bool) : M unit :=
  if cond then ret tt else abort AssertionFailure.

(** [while (iter) { ...; iter = iter->mNext; }]: [body] is one pass through
    the braces and yields the next value of [iter].  The loop is the same in
    both member functions. *)
Fixpoint while_iter (fuel : nat) (body : loc -> M ptr) (iter : ptr) : M unit :=
  match iter with
  | None => ret tt
  | Some l =>
      match fuel with
      | O => abort OutOfFuel
      | S fuel' => let* next := body l in while_iter fuel' body next
      end
  end.

(** [passes body ls]: one pass through the braces on each object of [ls], in
    list order, and nothing else. *)
Fixpoint passes (body : loc -> M ptr) (ls : list loc) : M unit :=
  match ls with
  | [] => ret tt
  | l :: ls' => body l ;;; passes body ls'
  end.

(** The objects on which the loop runs its body, in order.  Lemma
    [while_iter_visits] below ties it to the loop: a run of [while_iter] that
    is not cut off is the run of [passes] over this list. *)
Fixpoint visits (fuel : nat) (body : loc -> M ptr) (iter : ptr) (m : memory) : list loc :=
  match iter, fuel with
  | Some l, S fuel' =>
      l :: match body l m with
           | Done (next, m') => visits fuel' body next m'
           | _ => []
           end
  | _, _ => []
  end.

(** ** nsTObserverArray_base::ClearIterators *)

Definition ClearIterators_body (iter : loc) : M ptr :=
  write_mPosition iter 0 ;;;
  read_mNext iter.

Definition ClearIterators (fuel : nat) : M unit :=
  let* iter := read_mIterators in
  while_iter fuel ClearIterators_body iter.

(** ** nsTObserverArray_base::AdjustIterators *)

Section IndexType.

(** The width of [size_t] and [ptrdiff_t] on the target. *)
Variable bits : positive.

Definition modulus : Z := 2 ^ Z.pos bits.

(** The largest [index_type] value. *)
Definition SIZE_MAX : Z := modulus - 1.

(** Values of [index_type], an unsigned type. *)
Definition is_index (z : Z) : Prop := 0 <= z < modulus.

(** Conversion of an integer to [index_type]: reduction modulo [2 ^ bits]. *)
Definition to_index (z : Z) : Z := z mod modulus.

(** [pos += adj] with [pos] an [index_type] and [adj] a [diff_type]: [adj] is
    converted to the unsigned type, the sum wraps around. *)
Definition index_add (pos adj : Z) : Z := to_index (pos + to_index adj).

Definition AdjustIterators_body (aModPos aAdjustment : Z) (iter : loc) : M ptr :=
  let* pos := read_mPosition iter in
  (if aModPos <? pos
   then write_mPosition iter (index_add pos aAdjustment)
   else ret tt) ;;;
  read_mNext iter.

Definition AdjustIterators (fuel : nat) (aModPos aAdjustment : Z) : M unit :=
  MOZ_ASSERT ((aAdjustment =? -1) || (aAdjustment =? 1)) ;;;
  let* iter := read_mIterators in
  while_iter fuel (AdjustIterators_body aModPos aAdjustment) iter.

End IndexType.

(** ** The registry of live iterators *)

(** [registryb h p ls]: following [mNext] from [p] through the store [h]
    passes exactly the objects [ls], in this order, and then reaches
    [nullptr].  A list that closes into a cycle, or runs into an address
    holding no object, has no such [ls]. *)
Fixpoint registryb (h : gmap loc Iterator_base) (p : ptr) (ls : list loc) : bool :=
  match ls, p with
  | [], None => true
  | l :: ls', Some l0 =>
      bool_decide (l0 = l) &&
      match h !! l with
      | Some it => registryb h (mNext it) ls'
      | None => false
      end
  | _, _ => false
  end.

Definition registry (h : gmap loc Iterator_base) (p : ptr) (ls : list loc) : Prop :=
  registryb h p ls = true.

(** The live iterators of the receiver of a call. *)
Definition live (m : memory) (ls : list loc) : Prop :=
  registry (cells m) (mIterators (this_obj m)) ls.

(** The position stored in the object at [l], if there is one. *)
Definition position_at (m : memory) (l : loc) : option Z :=
  mPosition <$> cells m !! l.

(** The link stored in the object at [l], if there is one. *)
Definition next_at (m : memory) (l : loc) : option ptr :=
  mNext <$> cells m !! l.

(** Every live iterator holds a value of [index_type]. *)
Definition positions_in_range (bits : positive) (m : memory) (ls : list loc) : Prop :=
  forall l pos, l ∈ ls -> position_at m l = Some pos -> is_index bits pos.

(** What one pass of a loop does to the object it stands on, when that is a
    change of the object alone: [update_all upd ls h] applies [upd] to the
    objects [ls] of [h], one after the other. *)
Definition update_all (upd : Iterator_base -> Iterator_base)
    (ls : list loc) (h : gmap loc Iterator_base) : gmap loc Iterator_base :=
  foldl (fun h' l => alter upd l h') h ls.

Definition clear_one (it : Iterator_base) : Iterator_base :=
  {| mPosition := 0; mNext := mNext it |}.

Definition adjust_one (bits : positive) (aModPos aAdjustment : Z)
    (it : Iterator_base) : Iterator_base :=
  if aModPos <? mPosition it
  then {| mPosition := index_add bits (mPosition it) aAdjustment; mNext := mNext it |}
  else it.

(** What the frame of a call keeps: the receiver, every link, every object
    outside the registry [ls], and the registry itself. *)
Definition only_positions_differ (m m' : memory) (ls : list loc) : Prop :=
  this_obj m' = this_obj m /\
  (forall l, next_at m' l = next_at m l) /\
  dom (cells m') = dom (cells m) /\
  (forall l, l ∉ ls -> cells m' !! l = cells m !! l) /\
  live m' ls.

(** The store [m] with the position of the object at [l] replaced by [v]
    (used to vary one cursor while the others are kept). *)
Definition with_position (m : memory) (l : loc) (v : Z) : memory :=
  set_cells m (alter (fun it => {| mPosition := v; mNext := mNext it |}) l (cells m)).

(** ** nsASCIIMask.cpp *)

(** [ASCIIMaskArray], a [std::array<bool, 128>], as the list of its entries. *)
Definition ASCIIMaskArray : Type := list bool.

(** Modelled from the spec: [CreateASCIIMask] of [nsASCIIMask.h], which is not
    part of the sources at hand.  The specification describes the result as a
    fixed-size boolean lookup table keyed by the ASCII range that classifies
    single bytes against a predicate: entry [i], for [i] from 0 to 127, is
    the predicate at the character with code [i]. *)
Definition CreateASCIIMask (aTest : ascii -> bool) : ASCIIMaskArray :=
  (fun i => aTest (ascii_of_nat i)) <$> seq 0 128.

(** Character literals are written with their decimal code where they are
    not printable: form feed 012, tab 009, carriage return 013, line feed
    010. *)
Definition TestWhitespace (c : ascii) : bool :=
  Ascii.eqb c "012" || Ascii.eqb c "009" || Ascii.eqb c "013" ||
  Ascii.eqb c "010" || Ascii.eqb c " ".

Definition sWhitespaceMask : ASCIIMaskArray := CreateASCIIMask TestWhitespace.

Definition TestCRLF (c : ascii) : bool :=
  Ascii.eqb c "013" || Ascii.eqb c "010".

Definition sCRLFMask : ASCIIMaskArray := CreateASCIIMask TestCRLF.

Definition TestCRLFTab (c : ascii) : bool :=
  Ascii.eqb c "013" || Ascii.eqb c "010" || Ascii.eqb c "009".

Definition sCRLFTabMask : ASCIIMaskArray := CreateASCIIMask TestCRLFTab.

Definition TestZeroToNine (c : ascii) : bool :=
  Ascii.eqb c "0" || Ascii.eqb c "1" || Ascii.eqb c "2" || Ascii.eqb c "3" ||
  Ascii.eqb c "4" || Ascii.eqb c "5" || Ascii.eqb c "6" || Ascii.eqb c "7" ||
  Ascii.eqb c "8" || Ascii.eqb c "9".

Definition sZeroToNineMask : ASCIIMaskArray := CreateASCIIMask TestZeroToNine.

Module ASCIIMask.

Definition MaskWhitespace : ASCIIMaskArray := sWhitespaceMask.

Definition MaskCRLF : ASCIIMaskArray := sCRLFMask.

Definition MaskCRLFTab : ASCIIMaskArray := sCRLFTabMask.

Definition Mask0to9 : ASCIIMaskArray := sZeroToNineMask.

End ASCIIMask.

(** ** Sample stores *)

(** Three live cursors at positions 0, 2 and 4, linked from the head
    [3 -> 2 -> 1 -> nullptr], and an object at address 7 that belongs to no
    registry. *)
Definition three_cursors : memory :=
  {| this_obj := {| mIterators := Some 3%positive |};
     cells := <[1%positive := {| mPosition := 0; mNext := None |}]>
              (<[2%positive := {| mPosition := 2; mNext := Some 1%positive |}]>
              (<[3%positive := {| mPosition := 4; mNext := Some 2%positive |}]>
              (<[7%positive := {| mPosition := 5; mNext := None |}]> ∅))) |}.

(** One live cursor, at position [pos]. *)
Definition single_cursor (pos : Z) : memory :=
  {| this_obj := {| mIterators := Some 1%positive |};
     cells := <[1%positive := {| mPosition := pos; mNext := None |}]> ∅ |}.

(** One live cursor at the largest value of a 64-bit [index_type]. *)
Definition cursor_at_SIZE_MAX : memory := single_cursor (SIZE_MAX 64).

(** ** Lemmas on the registry *)

Lemma registry_nil h p : registry h p [] <-> p = None.
Proof. unfold registry. destruct p; simpl; split; congruence. Qed.

Lemma registry_cons h p l ls :
  registry h p (l :: ls) <->
  p = Some l /\ exists it, h !! l = Some it /\ registry h (mNext it) ls.
Proof.
  unfold registry. destruct p as [l0|]; simpl.
  - rewrite andb_true_iff, bool_decide_eq_true. split.
    + intros [-> H]. split; [done|].
      destruct (h !! l) as [it|]; [|done]. by exists it.
    + intros [[= ->] [it [Hl H]]]. split; [done|]. by rewrite Hl.
  - split; [done|]. by intros [? _].
Qed.

Lemma registry_functional h p ls1 ls2 :
  registry h p ls1 -> registry h p ls2 -> ls1 = ls2.
Proof.
  revert p ls2. induction ls1 as [|l ls1 IH]; intros p [|l2 ls2].
  - done.
  - rewrite registry_nil, registry_cons. intros -> [? _]. done.
  - rewrite registry_cons, registry_nil. intros [-> _] ?. done.
  - rewrite !registry_cons.
    intros [-> [it [Hl H1]]] [[= <-] [it2 [Hl2 H2]]].
    rewrite Hl in Hl2. injection Hl2 as <-.
    f_equal. by apply (IH (mNext it)).
Qed.

Lemma registry_suffix h p ls1 ls2 :
  registry h p (ls1 ++ ls2) -> exists q, registry h q ls2.
Proof.
  revert p. induction ls1 as [|l ls1 IH]; intros p; simpl.
  - by exists p.
  - rewrite registry_cons. intros [_ [it [_ H]]]. by apply (IH (mNext it)).
Qed.

Lemma registry_head h p l ls : registry h p (l :: ls) -> p = Some l.
Proof. rewrite registry_cons. by intros [? _]. Qed.

(** A list that ends in [nullptr] passes no object twice. *)
Lemma registry_NoDup h p ls : registry h p ls -> NoDup ls.
Proof.
  revert p. induction ls as [|l ls IH]; intros p H.
  - constructor.
  - pose proof H as H0. apply registry_cons in H as [-> [it [Hl H]]].
    apply NoDup_cons. split; [|by apply (IH (mNext it))].
    intros Hin. apply list_elem_of_split in Hin as [xs [ys ->]].
    destruct (registry_suffix h (mNext it) xs (l :: ys) H) as [q Hq].
    pose proof (registry_head _ _ _ _ Hq) as ->.
    pose proof (registry_functional _ _ _ _ H0 Hq) as Heq.
    apply (f_equal length) in Heq. simpl in Heq.
    rewrite length_app in Heq. simpl in Heq. lia.
Qed.

(** The registry depends on the links of the store only. *)
Lemma registry_links h h' p ls :
  (forall l, mNext <$> h' !! l = mNext <$> h !! l) ->
  registry h p ls -> registry h' p ls.
Proof.
  intros Hlinks. revert p. induction ls as [|l ls IH]; intros p.
  - by rewrite !registry_nil.
  - rewrite !registry_cons. intros [-> [it [Hl H]]]. split; [done|].
    specialize (Hlinks l). rewrite Hl in Hlinks.
    destruct (h' !! l) as [it'|] eqn:Hl'; [|done].
    simpl in Hlinks. injection Hlinks as Hn.
    exists it'. split; [done|]. rewrite Hn. by apply IH.
Qed.

Lemma registry_lookup h p ls l :
  registry h p ls -> l ∈ ls -> is_Some (h !! l).
Proof.
  revert p. induction ls as [|l0 ls IH]; intros p H Hin.
  - by apply elem_of_nil in Hin.
  - apply registry_cons in H as [_ [it [Hl H]]].
    apply elem_of_cons in Hin as [->|Hin]; [by exists it|].
    by apply (IH (mNext it)).
Qed.

(** ** Lemmas on [update_all] *)

Lemma update_all_cons upd l ls h :
  update_all upd (l :: ls) h = update_all upd ls (alter upd l h).
Proof. reflexivity. Qed.

Lemma update_all_notin upd ls h l :
  l ∉ ls -> update_all upd ls h !! l = h !! l.
Proof.
  revert h. induction ls as [|l0 ls IH]; intros h Hl; [done|].
  apply not_elem_of_cons in Hl as [Hne Hl].
  rewrite update_all_cons, IH by done. by apply lookup_alter_ne.
Qed.

Lemma update_all_in upd ls h l :
  NoDup ls -> l ∈ ls -> update_all upd ls h !! l = upd <$> h !! l.
Proof.
  revert h. induction ls as [|l0 ls IH]; intros h Hnd Hl.
  - by apply elem_of_nil in Hl.
  - apply NoDup_cons in Hnd as [Hnotin Hnd]. rewrite update_all_cons.
    apply elem_of_cons in Hl as [->|Hl].
    + rewrite update_all_notin by done. apply lookup_alter_eq.
    + rewrite IH by done. rewrite lookup_alter_ne; [done|].
      intros ->. contradiction.
Qed.

Lemma update_all_links upd ls h l :
  (forall it, mNext (upd it) = mNext it) ->
  mNext <$> update_all upd ls h !! l = mNext <$> h !! l.
Proof.
  intros Hupd. revert h. induction ls as [|l0 ls IH]; intros h; [done|].
  rewrite update_all_cons, IH.
  destruct (decide (l0 = l)) as [->|Hne].
  - rewrite lookup_alter_eq. destruct (h !! l); simpl; [|done].
    by rewrite Hupd.
  - by rewrite lookup_alter_ne.
Qed.

Lemma alter_lookup_insert (upd : Iterator_base -> Iterator_base)
    (h : gmap loc Iterator_base) l it :
  h !! l = Some it -> alter upd l h = <[l := upd it]> h.
Proof.
  intros Hl. apply map_eq. intros l'.
  destruct (decide (l = l')) as [<-|Hne].
  - by rewrite lookup_alter_eq, lookup_insert_eq, Hl.
  - by rewrite lookup_alter_ne, lookup_insert_ne.
Qed.

Lemma set_cells_same m : set_cells m (cells m) = m.
Proof. by destruct m. Qed.

Lemma cells_set_cells m h : cells (set_cells m h) = h.
Proof. reflexivity. Qed.

Lemma set_cells_twice m h1 h2 : set_cells (set_cells m h1) h2 = set_cells m h2.
Proof. reflexivity. Qed.

(** The loop is its body run on the objects it visits, once each in the
    order of the visits, for every body and every store: unless the step
    bound cuts it off, [while_iter] and [passes] over [visits] have the same
    outcome. *)
Lemma while_iter_visits body : forall fuel p m,
  while_iter fuel body p m <> OutOfFuel ->
  while_iter fuel body p m = passes body (visits fuel body p m) m.
Proof.
  induction fuel as [|fuel IH]; intros [l|] m Hrun; simpl in *; try done.
  unfold bind in *. destruct (body l m) as [[next m']| | |]; simpl; try done.
  unfold bind. by apply IH.
Qed.

(** ** The loop on a registry *)

Section Loop.

Variable body : loc -> M ptr.
Variable upd : Iterator_base -> Iterator_base.

Hypothesis body_run : forall l m it,
  cells m !! l = Some it ->
  body l m = Done (mNext it, set_cells m (alter upd l (cells m))).
Hypothesis upd_next : forall it, mNext (upd it) = mNext it.

Lemma registry_alter h p ls l : registry h p ls -> registry (alter upd l h) p ls.
Proof.
  apply registry_links. intros l'.
  apply (update_all_links upd [l] h l' upd_next).
Qed.

Lemma while_iter_run ls : forall fuel p m,
  registry (cells m) p ls ->
  (length ls <= fuel)%nat ->
  while_iter fuel body p m = Done (tt, set_cells m (update_all upd ls (cells m))).
Proof.
  induction ls as [|l ls IH]; intros fuel p m Hreg Hfuel.
  - apply registry_nil in Hreg as ->.
    destruct fuel; simpl; unfold ret; by rewrite set_cells_same.
  - apply registry_cons in Hreg as [-> [it [Hl Hreg]]].
    destruct fuel as [|fuel]; simpl in Hfuel; [lia|].
    simpl. unfold bind. rewrite (body_run l m it Hl).
    rewrite IH; simpl; [done| |lia].
    by apply registry_alter.
Qed.

Lemma visits_run ls : forall fuel p m,
  registry (cells m) p ls ->
  (length ls <= fuel)%nat ->
  visits fuel body p m = ls.
Proof.
  induction ls as [|l ls IH]; intros fuel p m Hreg Hfuel.
  - apply registry_nil in Hreg as ->. by destruct fuel.
  - apply registry_cons in Hreg as [-> [it [Hl Hreg]]].
    destruct fuel as [|fuel]; simpl in Hfuel; [lia|].
    simpl. rewrite (body_run l m it Hl). f_equal.
    apply IH; simpl; [|lia]. by apply registry_alter.
Qed.

(** With less fuel than objects the loop is cut off: it needs one pass per
    object. *)
Lemma while_iter_short ls : forall fuel p m,
  registry (cells m) p ls ->
  (fuel < length ls)%nat ->
  while_iter fuel body p m = OutOfFuel.
Proof.
  induction ls as [|l ls IH]; intros fuel p m Hreg Hfuel; simpl in Hfuel; [lia|].
  apply registry_cons in Hreg as [-> [it [Hl Hreg]]].
  destruct fuel as [|fuel]; [done|].
  simpl. unfold bind. rewrite (body_run l m it Hl).
  apply IH; simpl; [|lia]. by apply registry_alter.
Qed.

End Loop.

Lemma ClearIterators_body_run l m it :
  cells m !! l = Some it ->
  ClearIterators_body l m = Done (mNext it, set_cells m (alter clear_one l (cells m))).
Proof.
  intros Hl. unfold ClearIterators_body, bind, write_mPosition, read_mNext.
  rewrite Hl. simpl. rewrite lookup_insert_eq. simpl.
  by rewrite (alter_lookup_insert clear_one _ _ _ Hl).
Qed.

Lemma AdjustIterators_body_run bits aModPos aAdjustment l m it :
  cells m !! l = Some it ->
  AdjustIterators_body bits aModPos aAdjustment l m =
  Done (mNext it, set_cells m (alter (adjust_one bits aModPos aAdjustment) l (cells m))).
Proof.
  intros Hl.
  unfold AdjustIterators_body, bind, read_mPosition, write_mPosition, read_mNext.
  rewrite Hl. rewrite (alter_lookup_insert _ _ _ _ Hl). unfold adjust_one.
  destruct (aModPos <? mPosition it).
  - rewrite Hl. simpl. by rewrite lookup_insert_eq.
  - unfold ret. rewrite Hl. by rewrite insert_id, set_cells_same.
Qed.

Lemma clear_one_next it : mNext (clear_one it) = mNext it.
Proof. reflexivity. Qed.

Lemma adjust_one_next bits aModPos aAdjustment it :
  mNext (adjust_one bits aModPos aAdjustment it) = mNext it.
Proof. unfold adjust_one. by destruct (aModPos <? mPosition it). Qed.

(** The whole of [ClearIterators] on a registry. *)
Lemma ClearIterators_run fuel m ls :
  live m ls -> (length ls <= fuel)%nat ->
  ClearIterators fuel m = Done (tt, set_cells m (update_all clear_one ls (cells m))).
Proof.
  intros Hreg Hfuel. unfold ClearIterators, bind, read_mIterators.
  apply (while_iter_run _ clear_one ClearIterators_body_run clear_one_next); done.
Qed.

(** The whole of [AdjustIterators] on a registry, for an adjustment that
    passes the assertion. *)
Lemma AdjustIterators_run bits fuel aModPos aAdjustment m ls :
  live m ls -> (length ls <= fuel)%nat ->
  aAdjustment = 1 \/ aAdjustment = -1 ->
  AdjustIterators bits fuel aModPos aAdjustment m =
  Done (tt, set_cells m (update_all (adjust_one bits aModPos aAdjustment) ls (cells m))).
Proof.
  intros Hreg Hfuel Hadj. unfold AdjustIterators, bind, read_mIterators.
  assert ((aAdjustment =? -1) || (aAdjustment =? 1) = true) as ->.
  { destruct Hadj as [-> | ->]; reflexivity. }
  simpl.
  apply (while_iter_run _ _ (AdjustIterators_body_run bits aModPos aAdjustment)
           (adjust_one_next bits aModPos aAdjustment)); done.
Qed.

(** ** Arithmetic of [index_type] *)

Lemma modulus_ge_2 bits : 2 <= modulus bits.
Proof.
  unfold modulus.
  assert (2 ^ 1 <= 2 ^ Z.pos bits) by (apply Z.pow_le_mono_r; lia).
  lia.
Qed.

Lemma index_add_mod bits pos adj :
  index_add bits pos adj = to_index bits (pos + adj).
Proof. unfold index_add, to_index. apply Zplus_mod_idemp_r. Qed.

Lemma to_index_small bits z : is_index bits z -> to_index bits z = z.
Proof. unfold is_index, to_index. intros H. by apply Z.mod_small. Qed.

Lemma index_add_decrement bits pos :
  is_index bits pos -> 0 < pos -> index_add bits pos (-1) = pos - 1.
Proof.
  intros Hpos H0. rewrite index_add_mod. apply to_index_small.
  unfold is_index in *. lia.
Qed.

Lemma index_add_increment bits pos :
  is_index bits pos -> pos < SIZE_MAX bits -> index_add bits pos 1 = pos + 1.
Proof.
  intros Hpos Hmax. rewrite index_add_mod. apply to_index_small.
  unfold is_index, SIZE_MAX in *. lia.
Qed.

(** At the largest index the increment wraps around to zero. *)
Lemma index_add_wraps bits : index_add bits (SIZE_MAX bits) 1 = 0.
Proof.
  rewrite index_add_mod. unfold to_index, SIZE_MAX.
  replace (modulus bits - 1 + 1) with (modulus bits) by lia.
  apply Z.mod_same. pose proof (modulus_ge_2 bits). lia.
Qed.

(** ** Positions after a run *)

Lemma live_update_all upd m ls :
  (forall it, mNext (upd it) = mNext it) ->
  live m ls -> live (set_cells m (update_all upd ls (cells m))) ls.
Proof.
  intros Hupd. unfold live. simpl. apply registry_links.
  intros l. by apply update_all_links.
Qed.

Lemma live_position m ls l : live m ls -> l ∈ ls -> is_Some (position_at m l).
Proof.
  intros Hlive Hl. unfold position_at.
  destruct (registry_lookup _ _ _ _ Hlive Hl) as [it ->]. by eexists.
Qed.

Lemma position_update_all upd m ls l :
  live m ls -> l ∈ ls ->
  position_at (set_cells m (update_all upd ls (cells m))) l =
  (fun it => mPosition (upd it)) <$> cells m !! l.
Proof.
  intros Hlive Hl. unfold position_at. simpl.
  rewrite update_all_in by eauto using registry_NoDup.
  by destruct (cells m !! l).
Qed.

Lemma only_positions_differ_update_all upd m ls :
  (forall it, mNext (upd it) = mNext it) ->
  live m ls ->
  only_positions_differ m (set_cells m (update_all upd ls (cells m))) ls.
Proof.
  intros Hupd Hlive. unfold only_positions_differ. simpl.
  split; [done|]. split; [|split; [|split]].
  - intros l. unfold next_at. simpl. by apply update_all_links.
  - apply set_eq. intros l. rewrite !elem_of_dom.
    pose proof (update_all_links upd ls (cells m) l Hupd) as H.
    destruct (update_all upd ls (cells m) !! l), (cells m !! l);
      simpl in H; try done; split; intros [? ?]; done.
  - intros l Hl. by apply update_all_notin.
  - by apply live_update_all.
Qed.

(** An update that changes none of the objects it is applied to changes
    nothing. *)
Lemma update_all_id upd ls (h : gmap loc Iterator_base) :
  (forall l it, l ∈ ls -> h !! l = Some it -> upd it = it) ->
  update_all upd ls h = h.
Proof.
  revert h. induction ls as [|l ls IH]; intros h Hid; [done|].
  rewrite update_all_cons.
  assert (alter upd l h = h) as ->.
  { apply map_eq. intros l'. destruct (decide (l = l')) as [<-|Hne].
    - rewrite lookup_alter_eq. destruct (h !! l) as [it|] eqn:Hl; [|done].
      simpl. f_equal. apply (Hid l); [apply elem_of_cons; by left|done].
    - by rewrite lookup_alter_ne. }
  apply IH. intros l' it Hl'. apply Hid. apply elem_of_cons. by right.
Qed.

(** Two updates in a row over the same registry are the update by the
    composition. *)
Lemma update_all_compose upd1 upd2 ls (h : gmap loc Iterator_base) :
  NoDup ls ->
  update_all upd2 ls (update_all upd1 ls h) = update_all (upd2 ∘ upd1) ls h.
Proof.
  intros Hnd. apply map_eq. intros l.
  destruct (decide (l ∈ ls)) as [Hl|Hl].
  - rewrite !update_all_in by done. by destruct (h !! l).
  - by rewrite !update_all_notin.
Qed.

(** ** The assertion *)

Lemma AdjustIterators_body_no_assert bits aModPos aAdjustment l m :
  AdjustIterators_body bits aModPos aAdjustment l m <> AssertionFailure.
Proof.
  unfold AdjustIterators_body, bind, read_mPosition, write_mPosition, read_mNext, ret.
  destruct (cells m !! l) as [it|] eqn:Hl; [|done].
  destruct (aModPos <? mPosition it).
  - rewrite Hl. simpl. by rewrite lookup_insert_eq.
  - by rewrite Hl.
Qed.

Lemma while_iter_no_assert body :
  (forall l m, body l m <> AssertionFailure) ->
  forall fuel p m, while_iter fuel body p m <> AssertionFailure.
Proof.
  intros Hbody. induction fuel as [|fuel IH]; intros [l|] m; simpl; try done.
  unfold bind. specialize (Hbody l m).
  destruct (body l m) as [[next m']| | |]; [apply IH|done..].
Qed.

(** A call whose adjustment is neither +1 nor -1 stops at the assertion,
    before the loop. *)
Lemma AdjustIterators_rejects bits fuel aModPos aAdjustment m :
  ~ (aAdjustment = 1 \/ aAdjustment = -1) ->
  AdjustIterators bits fuel aModPos aAdjustment m = AssertionFailure.
Proof.
  intros Hadj. unfold AdjustIterators, bind, MOZ_ASSERT.
  destruct (Z.eqb_spec aAdjustment (-1)) as [->|Hm]; [exfalso; apply Hadj; by right|].
  destruct (Z.eqb_spec aAdjustment 1) as [->|Hp]; [exfalso; apply Hadj; by left|].
  reflexivity.
Qed.

(** A call whose adjustment is +1 or -1 passes the assertion, and nothing
    after it asserts. *)
Lemma AdjustIterators_accepts bits fuel aModPos aAdjustment m :
  aAdjustment = 1 \/ aAdjustment = -1 ->
  AdjustIterators bits fuel aModPos aAdjustment m <> AssertionFailure.
Proof.
  intros Hadj. unfold AdjustIterators, bind, MOZ_ASSERT.
  assert ((aAdjustment =? -1) || (aAdjustment =? 1) = true) as ->.
  { destruct Hadj as [-> | ->]; reflexivity. }
  simpl. apply while_iter_no_assert. apply AdjustIterators_body_no_assert.
Qed.

(** ** The properties of the two operations *)

(** C1. On a registry of live cursors, [AdjustIterators(aModPos, aAdjustment)]
    with an adjustment of +1 or -1 runs to completion; every cursor whose
    position is strictly greater than [aModPos] then holds its former
    position plus the adjustment (the sum being taken in [index_type]), and
    every cursor whose position is at most [aModPos] holds the position it
    had. *)
Theorem AdjustIterators_positions bits fuel aModPos aAdjustment m ls :
  live m ls ->
  (length ls <= fuel)%nat ->
  aAdjustment = 1 \/ aAdjustment = -1 ->
  exists m',
    AdjustIterators bits fuel aModPos aAdjustment m = Done (tt, m') /\
    forall l, l ∈ ls ->
      exists pos pos',
        position_at m l = Some pos /\
        position_at m' l = Some pos' /\
        (aModPos < pos -> pos' = to_index bits (pos + aAdjustment)) /\
        (pos <= aModPos -> pos' = pos).
Proof.
  intros Hlive Hfuel Hadj. eexists. split.
  { by apply AdjustIterators_run with (ls := ls). }
  intros l Hl. rewrite position_update_all by done. unfold position_at.
  destruct (registry_lookup _ _ _ _ Hlive Hl) as [it Hit]. rewrite Hit. simpl.
  exists (mPosition it), (mPosition (adjust_one bits aModPos aAdjustment it)).
  split; [done|]. split; [done|]. unfold adjust_one.
  destruct (Z.ltb_spec aModPos (mPosition it)); simpl.
  - split; [|lia]. intros _. apply index_add_mod.
  - split; [lia|done].
Qed.

(** C2. On a registry of live cursors, [ClearIterators()] runs to completion
    and leaves every live cursor at position zero, whatever position it had;
    the same cursors are live afterwards, so none of them is left at another
    position. *)
Theorem ClearIterators_zeroes_positions fuel m ls :
  live m ls ->
  (length ls <= fuel)%nat ->
  exists m',
    ClearIterators fuel m = Done (tt, m') /\
    live m' ls /\
    forall l, l ∈ ls -> position_at m' l = Some 0.
Proof.
  intros Hlive Hfuel. eexists. split.
  { by apply ClearIterators_run with (ls := ls). }
  split. { by apply live_update_all. }
  intros l Hl. rewrite position_update_all by done.
  destruct (registry_lookup _ _ _ _ Hlive Hl) as [it ->]. done.
Qed.

(** C3. [AdjustIterators] ends in the assertion failure exactly when the
    adjustment is neither +1 nor -1: such a call is aborted at once, without
    a resulting store, on every store and for every position; with an
    adjustment of +1 or -1 the assertion failure is never the outcome. *)
Theorem AdjustIterators_assertion bits fuel aModPos aAdjustment m :
  AdjustIterators bits fuel aModPos aAdjustment m = AssertionFailure <->
  ~ (aAdjustment = 1 \/ aAdjustment = -1).
Proof.
  split.
  - intros Hfail Hadj. by apply (AdjustIterators_accepts bits fuel aModPos aAdjustment m).
  - apply AdjustIterators_rejects.
Qed.

Lemma live_with_position m ls l v : live m ls -> live (with_position m l v) ls.
Proof.
  unfold live, with_position. simpl. apply registry_links. intros l'.
  apply (update_all_links _ [l] (cells m) l'). done.
Qed.

Lemma position_with_position_ne m l l' v :
  l <> l' -> position_at (with_position m l v) l' = position_at m l'.
Proof.
  intros Hne. unfold position_at, with_position. simpl.
  by rewrite lookup_alter_ne.
Qed.

(** C4. For an adjustment of +1 or -1 there is one rule, fixed by [aModPos]
    and the adjustment alone, that gives the position of every live cursor
    after [AdjustIterators] from the position of that same cursor before the
    call, on every registry; and for two distinct live cursors, replacing
    the position of the second before the call by any value leaves the
    position of the first after the call as it was. *)
Theorem AdjustIterators_cursors_independent bits aModPos aAdjustment :
  aAdjustment = 1 \/ aAdjustment = -1 ->
  exists rule : Z -> Z,
    (forall fuel m ls,
       live m ls -> (length ls <= fuel)%nat ->
       exists m',
         AdjustIterators bits fuel aModPos aAdjustment m = Done (tt, m') /\
         forall l, l ∈ ls ->
           is_Some (position_at m l) /\
           position_at m' l = rule <$> position_at m l) /\
    (forall fuel m ls l1 l2 v,
       live m ls -> (length ls <= fuel)%nat ->
       l1 ∈ ls -> l2 ∈ ls -> l1 <> l2 ->
       exists m1 m2,
         AdjustIterators bits fuel aModPos aAdjustment m = Done (tt, m1) /\
         AdjustIterators bits fuel aModPos aAdjustment (with_position m l2 v) =
           Done (tt, m2) /\
         position_at m2 l1 = position_at m1 l1).
Proof.
  intros Hadj.
  exists (fun pos => if aModPos <? pos then index_add bits pos aAdjustment else pos).
  assert (forall m ls l, live m ls -> l ∈ ls ->
    position_at (set_cells m (update_all (adjust_one bits aModPos aAdjustment) ls (cells m))) l =
    (fun pos => if aModPos <? pos then index_add bits pos aAdjustment else pos)
      <$> position_at m l) as Hrule.
  { intros m ls l Hlive Hl. rewrite position_update_all by done.
    unfold position_at. destruct (cells m !! l) as [it|]; [|done]. simpl.
    unfold adjust_one. by destruct (aModPos <? mPosition it). }
  split.
  - intros fuel m ls Hlive Hfuel. eexists. split.
    { by apply AdjustIterators_run with (ls := ls). }
    intros l Hl. split; [by apply live_position with (ls := ls)|].
    by apply Hrule.
  - intros fuel m ls l1 l2 v Hlive Hfuel Hl1 Hl2 Hne.
    pose proof (live_with_position m ls l2 v Hlive) as Hlive2.
    eexists. eexists. split; [|split].
    + by apply AdjustIterators_run with (ls := ls).
    + by apply AdjustIterators_run with (ls := ls).
    + rewrite !Hrule by done. by rewrite position_with_position_ne.
Qed.

(** C5. Both operations yield no value and change positions of live cursors
    only: after either of them the receiver (with its head pointer), the
    link of every object, the set of allocated objects, every object that
    is not a live cursor, and the registry itself are what they were. *)
Theorem operations_frame bits fuel aModPos aAdjustment m ls :
  live m ls ->
  (length ls <= fuel)%nat ->
  aAdjustment = 1 \/ aAdjustment = -1 ->
  exists ma mc : memory,
    AdjustIterators bits fuel aModPos aAdjustment m = Done (tt, ma) /\
    ClearIterators fuel m = Done (tt, mc) /\
    only_positions_differ m ma ls /\
    only_positions_differ m mc ls.
Proof.
  intros Hlive Hfuel Hadj. eexists. eexists. split; [|split; [|split]].
  - by apply AdjustIterators_run with (ls := ls).
  - by apply ClearIterators_run with (ls := ls).
  - apply only_positions_differ_update_all; [|done].
    apply adjust_one_next.
  - by apply only_positions_differ_update_all.
Qed.

(** Each operation is its loop started at [mIterators]. *)
Lemma ClearIterators_loop fuel m :
  ClearIterators fuel m =
  while_iter fuel ClearIterators_body (mIterators (this_obj m)) m.
Proof. reflexivity. Qed.

Lemma AdjustIterators_loop bits fuel aModPos aAdjustment m :
  aAdjustment = 1 \/ aAdjustment = -1 ->
  AdjustIterators bits fuel aModPos aAdjustment m =
  while_iter fuel (AdjustIterators_body bits aModPos aAdjustment)
    (mIterators (this_obj m)) m.
Proof.
  intros Hadj. unfold AdjustIterators, bind, MOZ_ASSERT.
  assert ((aAdjustment =? -1) || (aAdjustment =? 1) = true) as ->.
  { destruct Hadj as [-> | ->]; reflexivity. }
  reflexivity.
Qed.

(** C6. On a registry that ends in [nullptr], with one unit of fuel per
    live cursor, both operations terminate: [ClearIterators] completes,
    [AdjustIterators] completes when the adjustment is +1 or -1 and fails
    the assertion otherwise (it has no other outcome).  The run of each
    loop is one pass of its body on each live cursor, in list order, and
    nothing else: its outcome is that of [passes] over the registry, the
    objects it visits are the registry, no cursor occurs twice in it, and
    with fewer units of fuel than live cursors the loop is cut off before
    it has reached them all. *)
Theorem operations_terminate bits fuel aModPos aAdjustment m ls :
  live m ls ->
  (length ls <= fuel)%nat ->
  NoDup ls /\
  (exists mc, ClearIterators fuel m = Done (tt, mc) /\
              passes ClearIterators_body ls m = Done (tt, mc)) /\
  visits fuel ClearIterators_body (mIterators (this_obj m)) m = ls /\
  ((exists ma, AdjustIterators bits fuel aModPos aAdjustment m = Done (tt, ma)) \/
   AdjustIterators bits fuel aModPos aAdjustment m = AssertionFailure) /\
  (aAdjustment = 1 \/ aAdjustment = -1 ->
   exists ma, AdjustIterators bits fuel aModPos aAdjustment m = Done (tt, ma) /\
              passes (AdjustIterators_body bits aModPos aAdjustment) ls m =
                Done (tt, ma)) /\
  visits fuel (AdjustIterators_body bits aModPos aAdjustment)
    (mIterators (this_obj m)) m = ls /\
  (forall fuel', (fuel' < length ls)%nat ->
     ClearIterators fuel' m = OutOfFuel /\
     (aAdjustment = 1 \/ aAdjustment = -1 ->
      AdjustIterators bits fuel' aModPos aAdjustment m = OutOfFuel)).
Proof.
  intros Hlive Hfuel.
  pose proof (visits_run _ clear_one ClearIterators_body_run clear_one_next
                ls fuel _ m Hlive Hfuel) as Hvc.
  pose proof (visits_run _ _ (AdjustIterators_body_run bits aModPos aAdjustment)
                (adjust_one_next bits aModPos aAdjustment)
                ls fuel _ m Hlive Hfuel) as Hva.
  assert (aAdjustment = 1 \/ aAdjustment = -1 ->
          exists ma, AdjustIterators bits fuel aModPos aAdjustment m = Done (tt, ma) /\
                     passes (AdjustIterators_body bits aModPos aAdjustment) ls m =
                       Done (tt, ma))
    as Hdone.
  { intros Hadj. eexists. split; [by apply AdjustIterators_run with (ls := ls)|].
    rewrite <- (AdjustIterators_run bits fuel aModPos aAdjustment m ls) by done.
    rewrite (AdjustIterators_loop bits fuel aModPos aAdjustment m Hadj).
    rewrite <- Hva at 1. symmetry. apply while_iter_visits.
    rewrite <- (AdjustIterators_loop bits fuel aModPos aAdjustment m Hadj).
    by rewrite (AdjustIterators_run bits fuel aModPos aAdjustment m ls). }
  split; [by apply registry_NoDup with (h := cells m) (p := mIterators (this_obj m))|].
  split.
  { eexists. split; [by apply ClearIterators_run with (ls := ls)|].
    rewrite <- (ClearIterators_run fuel m ls) by done.
    rewrite (ClearIterators_loop fuel m).
    rewrite <- Hvc at 1. symmetry. apply while_iter_visits.
    rewrite <- (ClearIterators_loop fuel m).
    by rewrite (ClearIterators_run fuel m ls). }
  split; [done|].
  split.
  { destruct (decide (aAdjustment = 1 \/ aAdjustment = -1)) as [Hadj|Hadj].
    - left. destruct (Hdone Hadj) as [ma [Hma _]]. by exists ma.
    - right. by apply AdjustIterators_rejects. }
  split; [done|]. split; [done|].
  intros fuel' Hshort. split.
  - rewrite (ClearIterators_loop fuel' m).
    by apply (while_iter_short _ clear_one ClearIterators_body_run clear_one_next ls).
  - intros Hadj. rewrite (AdjustIterators_loop bits fuel' aModPos aAdjustment m Hadj).
    by apply (while_iter_short _ _ (AdjustIterators_body_run bits aModPos aAdjustment)
                (adjust_one_next bits aModPos aAdjustment) ls).
Qed.

Lemma record_eta (it : Iterator_base) :
  {| mPosition := mPosition it; mNext := mNext it |} = it.
Proof. by destruct it. Qed.

(** The decrement undoes the increment on an object whose position does not
    wrap. *)
Lemma adjust_one_inverse bits p it :
  is_index bits (mPosition it) ->
  (p < mPosition it -> mPosition it < SIZE_MAX bits) ->
  adjust_one bits p (-1) (adjust_one bits p 1 it) = it.
Proof.
  intros Hrange Hmax. unfold adjust_one at 2.
  destruct (Z.ltb_spec p (mPosition it)) as [Hlt|Hle].
  - unfold adjust_one. simpl.
    rewrite index_add_increment by auto.
    destruct (Z.ltb_spec p (mPosition it + 1)); [|lia].
    rewrite index_add_decrement.
    + replace (mPosition it + 1 - 1) with (mPosition it) by lia. apply record_eta.
    + specialize (Hmax Hlt). unfold is_index, SIZE_MAX in *. lia.
    + unfold is_index in Hrange. lia.
  - unfold adjust_one. destruct (Z.ltb_spec p (mPosition it)); [lia|done].
Qed.

(** C8 (as amended). On a registry whose cursors hold [index_type] values,
    none of those strictly after [p] being at [SIZE_MAX],
    [AdjustIterators(p, +1)] followed by [AdjustIterators(p, -1)] gives back
    the store of before the first call, hence the position of every live
    cursor. *)
Theorem AdjustIterators_increment_then_decrement bits fuel p m ls :
  live m ls ->
  (length ls <= fuel)%nat ->
  positions_in_range bits m ls ->
  (forall l pos, l ∈ ls -> position_at m l = Some pos -> p < pos -> pos < SIZE_MAX bits) ->
  exists m1,
    AdjustIterators bits fuel p 1 m = Done (tt, m1) /\
    AdjustIterators bits fuel p (-1) m1 = Done (tt, m).
Proof.
  intros Hlive Hfuel Hrange Hmax. eexists. split.
  { apply AdjustIterators_run with (ls := ls); auto. }
  rewrite AdjustIterators_run with (ls := ls); auto.
  2:{ apply live_update_all; [apply adjust_one_next|done]. }
  simpl. rewrite update_all_compose by eauto using registry_NoDup.
  rewrite set_cells_twice.
  rewrite (update_all_id (adjust_one bits p (-1) ∘ adjust_one bits p 1));
    [by rewrite set_cells_same|].
  intros l it Hl Hit. simpl. apply adjust_one_inverse.
  - apply (Hrange l); [done|]. unfold position_at. by rewrite Hit.
  - apply (Hmax l); [done|]. unfold position_at. by rewrite Hit.
Qed.

(** C9. On a registry whose cursors hold [index_type] values,
    [AdjustIterators(p, -1)] with [p] an [index_type] value decrements
    exactly the cursors strictly after [p], each of which is at least 1, so
    every position after the call is the exact integer difference, without
    wrap-around, and is again an [index_type] value. *)
Theorem AdjustIterators_decrement_no_underflow bits fuel p m ls :
  live m ls ->
  (length ls <= fuel)%nat ->
  positions_in_range bits m ls ->
  is_index bits p ->
  exists m',
    AdjustIterators bits fuel p (-1) m = Done (tt, m') /\
    positions_in_range bits m' ls /\
    forall l, l ∈ ls ->
      exists pos pos',
        position_at m l = Some pos /\
        position_at m' l = Some pos' /\
        (p < pos -> 1 <= pos /\ pos' = pos - 1) /\
        (pos <= p -> pos' = pos) /\
        0 <= pos' <= pos.
Proof.
  intros Hlive Hfuel Hrange Hp.
  assert (forall l, l ∈ ls ->
    exists pos pos',
      position_at m l = Some pos /\
      position_at (set_cells m (update_all (adjust_one bits p (-1)) ls (cells m))) l
        = Some pos' /\
      (p < pos -> 1 <= pos /\ pos' = pos - 1) /\
      (pos <= p -> pos' = pos) /\
      0 <= pos' <= pos) as Hall.
  { intros l Hl. rewrite position_update_all by done.
    destruct (registry_lookup _ _ _ _ Hlive Hl) as [it Hit].
    assert (is_index bits (mPosition it)) as Hit_range.
    { apply (Hrange l); [done|]. unfold position_at. by rewrite Hit. }
    unfold position_at. rewrite Hit. simpl.
    exists (mPosition it), (mPosition (adjust_one bits p (-1) it)).
    split; [done|]. split; [done|].
    unfold adjust_one, is_index in *.
    destruct (Z.ltb_spec p (mPosition it)); simpl.
    - rewrite index_add_decrement by (unfold is_index; lia). lia.
    - lia. }
  eexists. split.
  { apply AdjustIterators_run with (ls := ls); auto. }
  split; [|done].
  intros l pos' Hl Hpos'.
  destruct (Hall l Hl) as [pos [pos'' [Hpos [Hpos'' [_ [_ Hbound]]]]]].
  rewrite Hpos' in Hpos''. injection Hpos'' as <-.
  pose proof (Hrange l pos Hl Hpos) as Hr. unfold is_index in *. lia.
Qed.

(** C10. The store left by [ClearIterators()] is a fixed point: a further
    [ClearIterators()] gives the same store, and so does
    [AdjustIterators(p, aAdjustment)] for every [index_type] value [p] and
    every adjustment of +1 or -1, every live cursor staying at zero. *)
Theorem cleared_store_fixed_point bits fuel p aAdjustment m ls :
  live m ls ->
  (length ls <= fuel)%nat ->
  is_index bits p ->
  aAdjustment = 1 \/ aAdjustment = -1 ->
  exists m0,
    ClearIterators fuel m = Done (tt, m0) /\
    (forall l, l ∈ ls -> position_at m0 l = Some 0) /\
    ClearIterators fuel m0 = Done (tt, m0) /\
    AdjustIterators bits fuel p aAdjustment m0 = Done (tt, m0).
Proof.
  intros Hlive Hfuel Hp Hadj.
  pose proof (live_update_all clear_one m ls clear_one_next Hlive) as Hlive0.
  assert (forall l it, l ∈ ls ->
            update_all clear_one ls (cells m) !! l = Some it -> mPosition it = 0)
    as Hzero.
  { intros l it Hl. rewrite update_all_in by eauto using registry_NoDup.
    destruct (cells m !! l); simpl; [|done]. by intros [= <-]. }
  eexists. split; [by apply ClearIterators_run with (ls := ls)|].
  split; [|split].
  - intros l Hl. rewrite position_update_all by done.
    destruct (registry_lookup _ _ _ _ Hlive Hl) as [it ->]. done.
  - rewrite ClearIterators_run with (ls := ls) by done.
    rewrite set_cells_twice, cells_set_cells.
    rewrite (update_all_id clear_one ls (update_all clear_one ls (cells m))); [done|].
    intros l it Hl Hit. specialize (Hzero l it Hl Hit).
    unfold clear_one. rewrite <- Hzero. apply record_eta.
  - rewrite AdjustIterators_run with (ls := ls) by done.
    rewrite set_cells_twice, cells_set_cells.
    rewrite (update_all_id (adjust_one bits p aAdjustment) ls
               (update_all clear_one ls (cells m))); [done|].
    intros l it Hl Hit. specialize (Hzero l it Hl Hit).
    unfold adjust_one. rewrite Hzero.
    unfold is_index in Hp. destruct (Z.ltb_spec p 0); [lia|done].
Qed.

(** C8 (as stated) fails where the increment wraps: with 64-bit indices and
    a single live cursor at [SIZE_MAX], [AdjustIterators(0, +1)] takes the
    cursor to 0, and [AdjustIterators(0, -1)] then leaves it at 0, which is
    not the position it had before the first call. *)
Lemma AdjustIterators_increment_then_decrement_wraps :
  live cursor_at_SIZE_MAX [1%positive] /\
  positions_in_range 64 cursor_at_SIZE_MAX [1%positive] /\
  position_at cursor_at_SIZE_MAX 1%positive = Some 18446744073709551615 /\
  exists m1 m2,
    AdjustIterators 64 1 0 1 cursor_at_SIZE_MAX = Done (tt, m1) /\
    position_at m1 1%positive = Some 0 /\
    AdjustIterators 64 1 0 (-1) m1 = Done (tt, m2) /\
    position_at m2 1%positive = Some 0 /\
    position_at m2 1%positive <> position_at cursor_at_SIZE_MAX 1%positive.
Proof.
  split; [reflexivity|]. split.
  { intros l pos Hl. apply list_elem_of_singleton in Hl as ->.
    intros [= <-]. unfold is_index. by vm_compute. }
  split; [reflexivity|].
  eexists. eexists. split; [vm_compute; reflexivity|].
  split; [reflexivity|]. split; [vm_compute; reflexivity|].
  split; [reflexivity|]. by vm_compute.
Qed.

(** ** The ASCII mask tables *)

Lemma ascii_code_bound (c : ascii) :
  (nat_of_ascii c < 128)%nat ->
  exists b0 b1 b2 b3 b4 b5 b6, c = Ascii b0 b1 b2 b3 b4 b5 b6 false.
Proof.
  destruct c as [b0 b1 b2 b3 b4 b5 b6 [|]]; [|by eauto 8].
  intros H. exfalso. apply Nat.ltb_lt in H.
  destruct b0, b1, b2, b3, b4, b5, b6; vm_compute in H; discriminate.
Qed.

(** C7. For every character [c] with a code below 128, the entry of each
    table at the code of [c] is the answer to membership in the set the
    table is named after: form feed, tab, carriage return, line feed and
    space for [MaskWhitespace]; carriage return and line feed for
    [MaskCRLF]; these two and tab for [MaskCRLFTab]; the ten decimal digits
    for [Mask0to9]. *)
Theorem ASCIIMask_tables_exact (c : ascii) :
  (nat_of_ascii c < 128)%nat ->
  ASCIIMask.MaskWhitespace !! nat_of_ascii c =
    Some (bool_decide (c ∈ ["012"; "009"; "013"; "010"; " "]%char)) /\
  ASCIIMask.MaskCRLF !! nat_of_ascii c =
    Some (bool_decide (c ∈ ["013"; "010"]%char)) /\
  ASCIIMask.MaskCRLFTab !! nat_of_ascii c =
    Some (bool_decide (c ∈ ["013"; "010"; "009"]%char)) /\
  ASCIIMask.Mask0to9 !! nat_of_ascii c =
    Some (bool_decide
            (c ∈ ["0"; "1"; "2"; "3"; "4"; "5"; "6"; "7"; "8"; "9"]%char)).
Proof.
  intros H.
  destruct (ascii_code_bound c H) as (b0 & b1 & b2 & b3 & b4 & b5 & b6 & ->).
  clear H.
  destruct b0, b1, b2, b3, b4, b5, b6; vm_compute; done.
Qed.

(** ** The theorems at sample stores *)

(** The three adjustment scenarios of the specification, for a cursor at
    position 1: removal at 2, insertion at 0, insertion at 3. *)
Example removal_ahead_of_cursor :
  AdjustIterators 64 1 2 (-1) (single_cursor 1) = Done (tt, single_cursor 1).
Proof. vm_compute. reflexivity. Qed.

Example insertion_before_cursor :
  AdjustIterators 64 1 0 1 (single_cursor 1) = Done (tt, single_cursor 2).
Proof. vm_compute. reflexivity. Qed.

Example insertion_after_cursor :
  AdjustIterators 64 1 3 1 (single_cursor 1) = Done (tt, single_cursor 1).
Proof. vm_compute. reflexivity. Qed.

(** A registry that closes into a cycle has no list of live cursors, and
    the walk does not end within any given bound; shown here for a cursor
    linked to itself and a bound of 50 passes. *)
Example self_linked_cursor_runs_out :
  ClearIterators 50
    {| this_obj := {| mIterators := Some 1%positive |};
       cells := <[1%positive := {| mPosition := 3; mNext := Some 1%positive |}]> ∅ |}
  = OutOfFuel.
Proof. vm_compute. reflexivity. Qed.

Lemma three_cursors_in_range : positions_in_range 64 three_cursors [3; 2; 1]%positive.
Proof.
  intros l pos Hl Hpos. unfold is_index.
  apply elem_of_cons in Hl as [->|Hl]; [injection Hpos as <-; by vm_compute|].
  apply elem_of_cons in Hl as [->|Hl]; [injection Hpos as <-; by vm_compute|].
  apply list_elem_of_singleton in Hl as ->. injection Hpos as <-. by vm_compute.
Defined.

(** Insertion at position 1 seen by the cursors at 4, 2 and 0. *)
Lemma AdjustIterators_positions_witness :
  exists m',
    AdjustIterators 64 3 1 1 three_cursors = Done (tt, m') /\
    forall l, l ∈ [3; 2; 1]%positive ->
      exists pos pos',
        position_at three_cursors l = Some pos /\
        position_at m' l = Some pos' /\
        (1 < pos -> pos' = to_index 64 (pos + 1)) /\
        (pos <= 1 -> pos' = pos).
Proof.
  apply (AdjustIterators_positions 64 3 1 1 three_cursors [3; 2; 1]%positive).
  - reflexivity.
  - simpl. lia.
  - left. reflexivity.
Defined.

(** The bulk clear of the cursors at 0, 2 and 4. *)
Lemma ClearIterators_zeroes_positions_witness :
  exists m',
    ClearIterators 3 three_cursors = Done (tt, m') /\
    live m' [3; 2; 1]%positive /\
    forall l, l ∈ [3; 2; 1]%positive -> position_at m' l = Some 0.
Proof.
  apply (ClearIterators_zeroes_positions 3 three_cursors [3; 2; 1]%positive).
  - reflexivity.
  - simpl. lia.
Defined.

Lemma AdjustIterators_cursors_independent_witness :
  exists rule : Z -> Z,
    (forall fuel m ls,
       live m ls -> (length ls <= fuel)%nat ->
       exists m',
         AdjustIterators 64 fuel 2 (-1) m = Done (tt, m') /\
         forall l, l ∈ ls ->
           is_Some (position_at m l) /\
           position_at m' l = rule <$> position_at m l) /\
    (forall fuel m ls l1 l2 v,
       live m ls -> (length ls <= fuel)%nat ->
       l1 ∈ ls -> l2 ∈ ls -> l1 <> l2 ->
       exists m1 m2,
         AdjustIterators 64 fuel 2 (-1) m = Done (tt, m1) /\
         AdjustIterators 64 fuel 2 (-1) (with_position m l2 v) = Done (tt, m2) /\
         position_at m2 l1 = position_at m1 l1).
Proof.
  apply (AdjustIterators_cursors_independent 64 2 (-1)).
  right. reflexivity.
Defined.

Lemma operations_frame_witness :
  exists ma mc : memory,
    AdjustIterators 64 3 1 (-1) three_cursors = Done (tt, ma) /\
    ClearIterators 3 three_cursors = Done (tt, mc) /\
    only_positions_differ three_cursors ma [3; 2; 1]%positive /\
    only_positions_differ three_cursors mc [3; 2; 1]%positive.
Proof.
  apply (operations_frame 64 3 1 (-1) three_cursors [3; 2; 1]%positive).
  - reflexivity.
  - simpl. lia.
  - right. reflexivity.
Defined.

Lemma operations_terminate_witness :
  NoDup [3; 2; 1]%positive /\
  (exists mc, ClearIterators 3 three_cursors = Done (tt, mc) /\
              passes ClearIterators_body [3; 2; 1]%positive three_cursors =
                Done (tt, mc)) /\
  visits 3 ClearIterators_body (mIterators (this_obj three_cursors)) three_cursors =
    [3; 2; 1]%positive /\
  ((exists ma, AdjustIterators 64 3 1 (-1) three_cursors = Done (tt, ma)) \/
   AdjustIterators 64 3 1 (-1) three_cursors = AssertionFailure) /\
  (-1 = 1 \/ -1 = -1 ->
   exists ma, AdjustIterators 64 3 1 (-1) three_cursors = Done (tt, ma) /\
              passes (AdjustIterators_body 64 1 (-1)) [3; 2; 1]%positive three_cursors =
                Done (tt, ma)) /\
  visits 3 (AdjustIterators_body 64 1 (-1))
    (mIterators (this_obj three_cursors)) three_cursors = [3; 2; 1]%positive /\
  (forall fuel', (fuel' < length [3; 2; 1]%positive)%nat ->
     ClearIterators fuel' three_cursors = OutOfFuel /\
     (-1 = 1 \/ -1 = -1 ->
      AdjustIterators 64 fuel' 1 (-1) three_cursors = OutOfFuel)).
Proof.
  apply (operations_terminate 64 3 1 (-1) three_cursors [3; 2; 1]%positive).
  - reflexivity.
  - simpl. lia.
Defined.

Lemma AdjustIterators_increment_then_decrement_witness :
  exists m1,
    AdjustIterators 64 3 1 1 three_cursors = Done (tt, m1) /\
    AdjustIterators 64 3 1 (-1) m1 = Done (tt, three_cursors).
Proof.
  apply (AdjustIterators_increment_then_decrement 64 3 1 three_cursors
           [3; 2; 1]%positive).
  - reflexivity.
  - simpl. lia.
  - exact three_cursors_in_range.
  - intros l pos Hl Hpos _. unfold SIZE_MAX.
    apply elem_of_cons in Hl as [->|Hl]; [injection Hpos as <-; by vm_compute|].
    apply elem_of_cons in Hl as [->|Hl]; [injection Hpos as <-; by vm_compute|].
    apply list_elem_of_singleton in Hl as ->. injection Hpos as <-. by vm_compute.
Defined.

Lemma AdjustIterators_decrement_no_underflow_witness :
  exists m',
    AdjustIterators 64 3 0 (-1) three_cursors = Done (tt, m') /\
    positions_in_range 64 m' [3; 2; 1]%positive /\
    forall l, l ∈ [3; 2; 1]%positive ->
      exists pos pos',
        position_at three_cursors l = Some pos /\
        position_at m' l = Some pos' /\
        (0 < pos -> 1 <= pos /\ pos' = pos - 1) /\
        (pos <= 0 -> pos' = pos) /\
        0 <= pos' <= pos.
Proof.
  apply (AdjustIterators_decrement_no_underflow 64 3 0 three_cursors
           [3; 2; 1]%positive).
  - reflexivity.
  - simpl. lia.
  - exact three_cursors_in_range.
  - unfold is_index. by vm_compute.
Defined.

Lemma cleared_store_fixed_point_witness :
  exists m0,
    ClearIterators 3 three_cursors = Done (tt, m0) /\
    (forall l, l ∈ [3; 2; 1]%positive -> position_at m0 l = Some 0) /\
    ClearIterators 3 m0 = Done (tt, m0) /\
    AdjustIterators 64 3 0 1 m0 = Done (tt, m0).
Proof.
  apply (cleared_store_fixed_point 64 3 0 1 three_cursors [3; 2; 1]%positive).
  - reflexivity.
  - simpl. lia.
  - unfold is_index. by vm_compute.
  - left. reflexivity.
Defined.

Lemma ASCIIMask_tables_exact_witness :
  ASCIIMask.MaskWhitespace !! nat_of_ascii " " =
    Some (bool_decide (" "%char ∈ ["012"; "009"; "013"; "010"; " "]%char)) /\
  ASCIIMask.MaskCRLF !! nat_of_ascii " " =
    Some (bool_decide (" "%char ∈ ["013"; "010"]%char)) /\
  ASCIIMask.MaskCRLFTab !! nat_of_ascii " " =
    Some (bool_decide (" "%char ∈ ["013"; "010"; "009"]%char)) /\
  ASCIIMask.Mask0to9 !! nat_of_ascii " " =
    Some (bool_decide
            (" "%char ∈ ["0"; "1"; "2"; "3"; "4"; "5"; "6"; "7"; "8"; "9"]%char)).
Proof.
  apply (ASCIIMask_tables_exact " "%char).
  apply Nat.ltb_lt. reflexivity.
Defined.

(** * Further properties of the two operations *)

(** ** More lemmas on the store and on [index_type] *)

Lemma update_all_ext upd1 upd2 ls (h : gmap loc Iterator_base) :
  NoDup ls ->
  (forall l it, l ∈ ls -> h !! l = Some it -> upd1 it = upd2 it) ->
  update_all upd1 ls h = update_all upd2 ls h.
Proof.
  intros Hnd Hext. apply map_eq. intros l.
  destruct (decide (l ∈ ls)) as [Hl|Hl].
  - rewrite !update_all_in by done.
    destruct (h !! l) as [it|] eqn:Hit; [|done]. simpl. f_equal. by apply (Hext l).
  - by rewrite !update_all_notin.
Qed.

Lemma to_index_range bits z : is_index bits (to_index bits z).
Proof.
  unfold is_index, to_index. apply Z.mod_pos_bound.
  pose proof (modulus_ge_2 bits). lia.
Qed.

Lemma index_add_range bits pos adj : is_index bits (index_add bits pos adj).
Proof. unfold index_add. apply to_index_range. Qed.

(** The increment of an [index_type] value, with its one wrapping case. *)
Lemma index_add_one bits pos :
  is_index bits pos ->
  index_add bits pos 1 = if pos =? SIZE_MAX bits then 0 else pos + 1.
Proof.
  intros Hpos. destruct (Z.eqb_spec pos (SIZE_MAX bits)) as [->|Hne].
  - apply index_add_wraps.
  - apply index_add_increment; [done|]. unfold is_index, SIZE_MAX in *. lia.
Qed.

(** An adjustment by +1 or -1 never gives back the position it started
    from. *)
Lemma index_add_changes bits pos adj :
  adj = 1 \/ adj = -1 -> index_add bits pos adj <> pos.
Proof.
  intros Hadj Heq. rewrite index_add_mod in Heq. unfold to_index in Heq.
  pose proof (modulus_ge_2 bits) as HM.
  assert (0 <= pos < modulus bits) as Hpos.
  { rewrite <- Heq. apply Z.mod_pos_bound. lia. }
  destruct Hadj as [-> | ->].
  - destruct (Z.eq_dec pos (modulus bits - 1)) as [->|Hne].
    + replace (modulus bits - 1 + 1) with (modulus bits) in Heq by lia.
      rewrite Z.mod_same in Heq by lia. lia.
    + rewrite Z.mod_small in Heq by lia. lia.
  - destruct (Z.eq_dec pos 0) as [->|Hne].
    + replace (0 + -1) with (-1) in Heq by lia.
      assert ((-1) mod modulus bits = modulus bits - 1) as Hm.
      { symmetry. apply (Z.mod_unique (-1) (modulus bits) (-1)); lia. }
      lia.
    + rewrite Z.mod_small in Heq by lia. lia.
Qed.

Lemma live_object m ls l :
  live m ls -> l ∈ ls -> exists it, cells m !! l = Some it.
Proof. intros Hlive Hl. by destruct (registry_lookup _ _ _ _ Hlive Hl) as [it ?]; eauto. Qed.

Lemma position_at_object m l it :
  cells m !! l = Some it -> position_at m l = Some (mPosition it).
Proof. intros H. unfold position_at. by rewrite H. Qed.

Lemma set_cells_inj m h : set_cells m h = m -> h = cells m.
Proof. intros H. apply (f_equal cells) in H. by rewrite cells_set_cells in H. Qed.

(** ** When the loop completes *)

Section LoopCompletion.

Variable body : loc -> M ptr.
Variable upd : Iterator_base -> Iterator_base.

Hypothesis body_run : forall l m it,
  cells m !! l = Some it ->
  body l m = Done (mNext it, set_cells m (alter upd l (cells m))).
Hypothesis body_fault : forall l m,
  cells m !! l = None -> body l m = InvalidDeref.
Hypothesis upd_next : forall it, mNext (upd it) = mNext it.

Lemma while_iter_done_registry : forall fuel p m r m',
  while_iter fuel body p m = Done (r, m') ->
  exists ls, registry (cells m) p ls /\ (length ls <= fuel)%nat.
Proof.
  induction fuel as [|fuel IH]; intros [l|] m r m' Hrun; simpl in Hrun.
  - discriminate.
  - exists []. split; [by apply registry_nil|simpl; lia].
  - unfold bind in Hrun. destruct (cells m !! l) as [it|] eqn:Hl.
    + rewrite (body_run l m it Hl) in Hrun.
      apply IH in Hrun as [ls [Hreg Hlen]]. rewrite cells_set_cells in Hreg.
      exists (l :: ls). split; [|simpl; lia].
      apply registry_cons. split; [done|]. exists it. split; [done|].
      revert Hreg. apply registry_links. intros l'.
      symmetry. apply (update_all_links upd [l] (cells m) l' upd_next).
    + rewrite (body_fault l m Hl) in Hrun. discriminate.
  - exists []. split; [by apply registry_nil|simpl; lia].
Qed.

End LoopCompletion.

Lemma ClearIterators_body_fault l m :
  cells m !! l = None -> ClearIterators_body l m = InvalidDeref.
Proof.
  intros Hl. unfold ClearIterators_body, bind, write_mPosition. by rewrite Hl.
Qed.

Lemma AdjustIterators_body_fault bits aModPos aAdjustment l m :
  cells m !! l = None ->
  AdjustIterators_body bits aModPos aAdjustment l m = InvalidDeref.
Proof.
  intros Hl. unfold AdjustIterators_body, bind, read_mPosition. by rewrite Hl.
Qed.

(** X1. Each operation completes exactly when the list hanging off
    [mIterators] ends in [nullptr] and the step bound covers its length
    (and, for [AdjustIterators], the adjustment is +1 or -1): the loop
    leaves only at [nullptr], so on a list that closes into a cycle no step
    bound is enough. *)
Theorem operations_complete_iff bits fuel aModPos aAdjustment m :
  ((exists mc, ClearIterators fuel m = Done (tt, mc)) <->
   (exists ls, live m ls /\ (length ls <= fuel)%nat)) /\
  ((exists ma, AdjustIterators bits fuel aModPos aAdjustment m = Done (tt, ma)) <->
   ((aAdjustment = 1 \/ aAdjustment = -1) /\
    exists ls, live m ls /\ (length ls <= fuel)%nat)).
Proof.
  split; split.
  - intros [mc Hrun]. unfold ClearIterators, bind, read_mIterators in Hrun.
    apply (while_iter_done_registry _ clear_one ClearIterators_body_run
             ClearIterators_body_fault clear_one_next) in Hrun. exact Hrun.
  - intros [ls [Hlive Hfuel]]. eexists. by apply ClearIterators_run with (ls := ls).
  - intros [ma Hrun].
    destruct (decide (aAdjustment = 1 \/ aAdjustment = -1)) as [Hadj|Hadj].
    + split; [done|]. unfold AdjustIterators, bind, MOZ_ASSERT in Hrun.
      assert ((aAdjustment =? -1) || (aAdjustment =? 1) = true) as Hb.
      { destruct Hadj as [-> | ->]; reflexivity. }
      rewrite Hb in Hrun. simpl in Hrun.
      apply (while_iter_done_registry _ _
               (AdjustIterators_body_run bits aModPos aAdjustment)
               (AdjustIterators_body_fault bits aModPos aAdjustment)
               (adjust_one_next bits aModPos aAdjustment)) in Hrun. exact Hrun.
    + rewrite AdjustIterators_rejects in Hrun by done. discriminate.
  - intros [Hadj [ls [Hlive Hfuel]]]. eexists.
    by apply AdjustIterators_run with (ls := ls).
Qed.

(** ** When the store is left as it was *)

Lemma adjust_one_fixed bits p adj it :
  adj = 1 \/ adj = -1 ->
  (adjust_one bits p adj it = it <-> mPosition it <= p).
Proof.
  intros Hadj. unfold adjust_one.
  destruct (Z.ltb_spec p (mPosition it)) as [Hlt|Hle].
  - split; [|lia]. intros Heq. apply (f_equal mPosition) in Heq. simpl in Heq.
    by apply index_add_changes in Heq.
  - done.
Qed.

Lemma clear_one_fixed it : clear_one it = it <-> mPosition it = 0.
Proof.
  unfold clear_one. split.
  - intros Heq. apply (f_equal mPosition) in Heq. by simpl in Heq.
  - intros H. rewrite <- H. apply record_eta.
Qed.

Lemma update_all_fixed upd ls (h : gmap loc Iterator_base) :
  NoDup ls ->
  (update_all upd ls h = h <->
   forall l it, l ∈ ls -> h !! l = Some it -> upd it = it).
Proof.
  intros Hnd. split; [|apply update_all_id].
  intros Heq l it Hl Hit. apply (f_equal (fun h' => h' !! l)) in Heq.
  rewrite update_all_in, Hit in Heq by done. simpl in Heq. congruence.
Qed.

(** X2. On a registry, [AdjustIterators(aModPos, +1 or -1)] returns the
    store it was given exactly when no live cursor is strictly after
    [aModPos], and [ClearIterators()] returns the store it was given
    exactly when every live cursor is already at zero. *)
Theorem operations_identity_iff bits fuel aModPos aAdjustment m ls :
  live m ls ->
  (length ls <= fuel)%nat ->
  aAdjustment = 1 \/ aAdjustment = -1 ->
  (AdjustIterators bits fuel aModPos aAdjustment m = Done (tt, m) <->
   forall l pos, l ∈ ls -> position_at m l = Some pos -> pos <= aModPos) /\
  (ClearIterators fuel m = Done (tt, m) <->
   forall l, l ∈ ls -> position_at m l = Some 0).
Proof.
  intros Hlive Hfuel Hadj.
  pose proof (registry_NoDup _ _ _ Hlive) as Hnd.
  rewrite (AdjustIterators_run bits fuel aModPos aAdjustment m ls) by done.
  rewrite (ClearIterators_run fuel m ls) by done.
  split; split.
  - intros [= Heq]. apply set_cells_inj in Heq.
    pose proof (proj1 (update_all_fixed _ _ _ Hnd) Heq) as Hfix. clear Heq.
    intros l pos Hl Hpos. destruct (live_object m ls l Hlive Hl) as [it Hit].
    rewrite (position_at_object m l it Hit) in Hpos. injection Hpos as <-.
    apply (adjust_one_fixed bits aModPos aAdjustment it Hadj). by apply (Hfix l).
  - intros Hall. rewrite update_all_id; [by rewrite set_cells_same|].
    intros l it Hl Hit. apply adjust_one_fixed; [done|].
    apply (Hall l); [done|]. by apply position_at_object.
  - intros [= Heq]. apply set_cells_inj in Heq.
    pose proof (proj1 (update_all_fixed _ _ _ Hnd) Heq) as Hfix. clear Heq.
    intros l Hl. destruct (live_object m ls l Hlive Hl) as [it Hit].
    rewrite (position_at_object m l it Hit). f_equal.
    apply clear_one_fixed. by apply (Hfix l).
  - intros Hall. rewrite update_all_id; [by rewrite set_cells_same|].
    intros l it Hl Hit. apply clear_one_fixed.
    specialize (Hall l Hl). rewrite (position_at_object m l it Hit) in Hall.
    by injection Hall.
Qed.

(** X3. The increment wraps at the top of [index_type]: a live cursor at
    [SIZE_MAX], with [aModPos] below it, is at position 0 after
    [AdjustIterators(aModPos, +1)], for every width of the type. *)
Theorem AdjustIterators_wraps_at_SIZE_MAX bits fuel aModPos m ls l :
  live m ls ->
  (length ls <= fuel)%nat ->
  l ∈ ls ->
  position_at m l = Some (SIZE_MAX bits) ->
  aModPos < SIZE_MAX bits ->
  exists m',
    AdjustIterators bits fuel aModPos 1 m = Done (tt, m') /\
    position_at m' l = Some 0.
Proof.
  intros Hlive Hfuel Hl Hpos Hp. eexists. split.
  { apply AdjustIterators_run with (ls := ls); auto. }
  rewrite position_update_all by done.
  destruct (live_object m ls l Hlive Hl) as [it Hit].
  rewrite (position_at_object m l it Hit) in Hpos. injection Hpos as Hpos.
  rewrite Hit. simpl. f_equal. unfold adjust_one. rewrite Hpos.
  destruct (Z.ltb_spec aModPos (SIZE_MAX bits)); [|lia].
  simpl. apply index_add_wraps.
Qed.

(** X4. Both operations keep the cursors within [index_type]: if every live
    cursor holds an [index_type] value before [AdjustIterators] (with +1 or
    -1), every live cursor holds one after it; after [ClearIterators] every
    live cursor holds one whatever it held before. *)
Theorem operations_keep_positions_in_range bits fuel aModPos aAdjustment m ls :
  live m ls ->
  (length ls <= fuel)%nat ->
  aAdjustment = 1 \/ aAdjustment = -1 ->
  exists ma mc,
    AdjustIterators bits fuel aModPos aAdjustment m = Done (tt, ma) /\
    ClearIterators fuel m = Done (tt, mc) /\
    (positions_in_range bits m ls -> positions_in_range bits ma ls) /\
    positions_in_range bits mc ls.
Proof.
  intros Hlive Hfuel Hadj. eexists. eexists.
  split; [by apply AdjustIterators_run with (ls := ls)|].
  split; [by apply ClearIterators_run with (ls := ls)|].
  split.
  - intros Hrange l pos Hl. rewrite position_update_all by done.
    destruct (live_object m ls l Hlive Hl) as [it Hit]. rewrite Hit. simpl.
    intros [= <-]. unfold adjust_one.
    destruct (aModPos <? mPosition it); simpl.
    + apply index_add_range.
    + apply (Hrange l); [done|]. by apply position_at_object.
  - intros l pos Hl. rewrite position_update_all by done.
    destruct (live_object m ls l Hlive Hl) as [it Hit]. rewrite Hit. simpl.
    intros [= <-]. unfold is_index. pose proof (modulus_ge_2 bits). lia.
Qed.

(** X5. A clear absorbs an adjustment made before it: [AdjustIterators]
    (with +1 or -1) followed by [ClearIterators] ends in the very store
    that [ClearIterators] alone ends in. *)
Theorem ClearIterators_absorbs_AdjustIterators bits fuel aModPos aAdjustment m ls :
  live m ls ->
  (length ls <= fuel)%nat ->
  aAdjustment = 1 \/ aAdjustment = -1 ->
  exists ma mc,
    AdjustIterators bits fuel aModPos aAdjustment m = Done (tt, ma) /\
    ClearIterators fuel ma = Done (tt, mc) /\
    ClearIterators fuel m = Done (tt, mc).
Proof.
  intros Hlive Hfuel Hadj.
  pose proof (registry_NoDup _ _ _ Hlive) as Hnd.
  eexists. eexists. split; [by apply AdjustIterators_run with (ls := ls)|].
  split.
  - apply ClearIterators_run with (ls := ls); [|done].
    apply live_update_all; [apply adjust_one_next|done].
  - rewrite (ClearIterators_run fuel m ls) by done.
    rewrite set_cells_twice, cells_set_cells.
    rewrite update_all_compose by done. do 3 f_equal.
    apply update_all_ext; [done|].
    intros l it _ _. unfold clear_one. simpl. by rewrite adjust_one_next.
Qed.

(** ** Two adjustments in a row *)

Lemma adjust_one_range bits p adj it :
  is_index bits (mPosition it) ->
  is_index bits (mPosition (adjust_one bits p adj it)).
Proof.
  intros H. unfold adjust_one. destruct (p <? mPosition it); [|done].
  simpl. apply index_add_range.
Qed.

Lemma adjust_one_inc bits p it :
  is_index bits (mPosition it) ->
  adjust_one bits p 1 it =
  {| mPosition := if p <? mPosition it
                  then (if mPosition it =? SIZE_MAX bits then 0 else mPosition it + 1)
                  else mPosition it;
     mNext := mNext it |}.
Proof.
  intros H. unfold adjust_one. destruct (p <? mPosition it).
  - by rewrite index_add_one.
  - symmetry. apply record_eta.
Qed.

Lemma adjust_one_dec bits p it :
  is_index bits (mPosition it) -> 0 <= p ->
  adjust_one bits p (-1) it =
  {| mPosition := if p <? mPosition it then mPosition it - 1 else mPosition it;
     mNext := mNext it |}.
Proof.
  intros H Hp. unfold adjust_one. destruct (Z.ltb_spec p (mPosition it)).
  - rewrite index_add_decrement; [done|done|lia].
  - symmetry. apply record_eta.
Qed.

Ltac split_comparisons :=
  repeat match goal with
         | |- context [?a <? ?b] => destruct (Z.ltb_spec a b)
         | |- context [?a =? ?b] => destruct (Z.eqb_spec a b)
         end.

(** Removal at [p], then insertion at [p], seen by one object. *)
Lemma adjust_one_dec_inc bits p it :
  is_index bits (mPosition it) -> 0 <= p ->
  mPosition (adjust_one bits p 1 (adjust_one bits p (-1) it)) =
  if mPosition it =? p + 1 then p else mPosition it.
Proof.
  intros H Hp.
  rewrite (adjust_one_inc bits p (adjust_one bits p (-1) it))
    by (by apply adjust_one_range).
  rewrite (adjust_one_dec bits p it) by done. simpl.
  pose proof (modulus_ge_2 bits). unfold is_index, SIZE_MAX in *.
  split_comparisons; lia.
Qed.

(** Insertions at [p] and at [q], with [p <= q], in either order. *)
Lemma adjust_one_inc_inc bits p q it :
  is_index bits (mPosition it) -> 0 <= p -> p <= q ->
  adjust_one bits (q + 1) 1 (adjust_one bits p 1 it) =
  adjust_one bits p 1 (adjust_one bits q 1 it).
Proof.
  intros H Hp Hpq.
  rewrite (adjust_one_inc bits (q + 1) (adjust_one bits p 1 it))
    by (by apply adjust_one_range).
  rewrite (adjust_one_inc bits p (adjust_one bits q 1 it))
    by (by apply adjust_one_range).
  rewrite !(adjust_one_inc bits _ it) by done. simpl. f_equal.
  pose proof (modulus_ge_2 bits). unfold is_index, SIZE_MAX in *.
  split_comparisons; lia.
Qed.

(** Removals at [q + 1] and at [p], with [p <= q], in either order. *)
Lemma adjust_one_dec_dec bits p q it :
  is_index bits (mPosition it) -> 0 <= p -> p <= q ->
  adjust_one bits p (-1) (adjust_one bits (q + 1) (-1) it) =
  adjust_one bits q (-1) (adjust_one bits p (-1) it).
Proof.
  intros H Hp Hpq.
  rewrite (adjust_one_dec bits p (adjust_one bits (q + 1) (-1) it))
    by (by apply adjust_one_range || done).
  rewrite (adjust_one_dec bits q (adjust_one bits p (-1) it))
    by (by apply adjust_one_range || lia).
  rewrite (adjust_one_dec bits (q + 1) it) by (done || lia).
  rewrite (adjust_one_dec bits p it) by done. simpl. f_equal.
  unfold is_index in *. split_comparisons; lia.
Qed.

(** Two calls of [AdjustIterators] on a registry apply the two per-object
    updates one after the other. *)
Lemma AdjustIterators_twice bits fuel p1 a1 p2 a2 m ls :
  live m ls ->
  (length ls <= fuel)%nat ->
  a1 = 1 \/ a1 = -1 ->
  a2 = 1 \/ a2 = -1 ->
  exists m1,
    AdjustIterators bits fuel p1 a1 m = Done (tt, m1) /\
    AdjustIterators bits fuel p2 a2 m1 =
    Done (tt, set_cells m
                (update_all (adjust_one bits p2 a2 ∘ adjust_one bits p1 a1) ls (cells m))).
Proof.
  intros Hlive Hfuel Ha1 Ha2. eexists.
  split; [by apply AdjustIterators_run with (ls := ls)|].
  rewrite AdjustIterators_run with (ls := ls); auto.
  2:{ apply live_update_all; [apply adjust_one_next|done]. }
  rewrite set_cells_twice, cells_set_cells.
  by rewrite update_all_compose by eauto using registry_NoDup.
Qed.

Lemma in_range_object bits m ls l it :
  positions_in_range bits m ls -> l ∈ ls -> cells m !! l = Some it ->
  is_index bits (mPosition it).
Proof. intros Hrange Hl Hit. apply (Hrange l); [done|]. by apply position_at_object. Qed.

(** X6. Removal then insertion at the same place is not the identity: after
    [AdjustIterators(p, -1)] and then [AdjustIterators(p, +1)], on cursors
    holding [index_type] values, the cursor that stood at [p + 1] stands at
    [p], and every other live cursor is back where it was. *)
Theorem AdjustIterators_decrement_then_increment bits fuel p m ls :
  live m ls ->
  (length ls <= fuel)%nat ->
  positions_in_range bits m ls ->
  is_index bits p ->
  exists m1 m2,
    AdjustIterators bits fuel p (-1) m = Done (tt, m1) /\
    AdjustIterators bits fuel p 1 m1 = Done (tt, m2) /\
    forall l, l ∈ ls ->
      exists pos,
        position_at m l = Some pos /\
        position_at m2 l = Some (if pos =? p + 1 then p else pos).
Proof.
  intros Hlive Hfuel Hrange Hp.
  destruct (AdjustIterators_twice bits fuel p (-1) p 1 m ls) as [m1 [H1 H2]]; auto.
  eexists. eexists. split; [exact H1|]. split; [exact H2|].
  intros l Hl. destruct (live_object m ls l Hlive Hl) as [it Hit].
  exists (mPosition it). split; [by apply position_at_object|].
  rewrite position_update_all by done. rewrite Hit. simpl. f_equal.
  apply adjust_one_dec_inc.
  - by apply (in_range_object bits m ls l).
  - unfold is_index in Hp. lia.
Qed.

(** X7. Insertions commute the way positions in an array do: for
    [0 <= p <= q < SIZE_MAX] (so that [q + 1] is an [index_type] value, the
    one the callee receives) and cursors holding [index_type] values,
    [AdjustIterators(p, +1)] followed by [AdjustIterators(q + 1, +1)] ends
    in the same store as [AdjustIterators(q, +1)] followed by
    [AdjustIterators(p, +1)]. *)
Theorem AdjustIterators_insertions_commute bits fuel p q m ls :
  live m ls ->
  (length ls <= fuel)%nat ->
  positions_in_range bits m ls ->
  0 <= p ->
  p <= q ->
  q < SIZE_MAX bits ->
  exists m1 m2 m',
    AdjustIterators bits fuel p 1 m = Done (tt, m1) /\
    AdjustIterators bits fuel (q + 1) 1 m1 = Done (tt, m') /\
    AdjustIterators bits fuel q 1 m = Done (tt, m2) /\
    AdjustIterators bits fuel p 1 m2 = Done (tt, m').
Proof.
  intros Hlive Hfuel Hrange Hp Hpq _.
  destruct (AdjustIterators_twice bits fuel p 1 (q + 1) 1 m ls) as [m1 [H1 H1']]; auto.
  destruct (AdjustIterators_twice bits fuel q 1 p 1 m ls) as [m2 [H2 H2']]; auto.
  exists m1, m2. eexists. split; [exact H1|]. split; [exact H1'|].
  split; [exact H2|]. rewrite H2'. do 3 f_equal.
  apply update_all_ext; [by eauto using registry_NoDup|].
  intros l it Hl Hit. simpl. symmetry. apply adjust_one_inc_inc; [|done..].
  by apply (in_range_object bits m ls l).
Qed.

(** X8. Removals commute the way positions in an array do: for
    [0 <= p <= q < SIZE_MAX] (so that [q + 1] is an [index_type] value, the
    one the callee receives) and cursors holding [index_type] values,
    [AdjustIterators(q + 1, -1)] followed by [AdjustIterators(p, -1)] ends
    in the same store as [AdjustIterators(p, -1)] followed by
    [AdjustIterators(q, -1)]. *)
Theorem AdjustIterators_removals_commute bits fuel p q m ls :
  live m ls ->
  (length ls <= fuel)%nat ->
  positions_in_range bits m ls ->
  0 <= p ->
  p <= q ->
  q < SIZE_MAX bits ->
  exists m1 m2 m',
    AdjustIterators bits fuel (q + 1) (-1) m = Done (tt, m1) /\
    AdjustIterators bits fuel p (-1) m1 = Done (tt, m') /\
    AdjustIterators bits fuel p (-1) m = Done (tt, m2) /\
    AdjustIterators bits fuel q (-1) m2 = Done (tt, m').
Proof.
  intros Hlive Hfuel Hrange Hp Hpq _.
  destruct (AdjustIterators_twice bits fuel (q + 1) (-1) p (-1) m ls)
    as [m1 [H1 H1']]; auto.
  destruct (AdjustIterators_twice bits fuel p (-1) q (-1) m ls)
    as [m2 [H2 H2']]; auto.
  exists m1, m2. eexists. split; [exact H1|]. split; [exact H1'|].
  split; [exact H2|]. rewrite H2'. do 3 f_equal.
  apply update_all_ext; [by eauto using registry_NoDup|].
  intros l it Hl Hit. simpl. symmetry. apply adjust_one_dec_dec; [|done..].
  by apply (in_range_object bits m ls l).
Qed.

(** X9. An adjustment keeps the cursors in order: for cursors holding
    [index_type] values, an [index_type] value [p] and, in the case of +1,
    no live cursor at [SIZE_MAX], two live cursors with [pos1 <= pos2]
    before [AdjustIterators(p, +1 or -1)] have [pos1' <= pos2'] after it,
    and no cursor moves by more than one. *)
Theorem AdjustIterators_keeps_order bits fuel p aAdjustment m ls :
  live m ls ->
  (length ls <= fuel)%nat ->
  positions_in_range bits m ls ->
  is_index bits p ->
  aAdjustment = 1 \/ aAdjustment = -1 ->
  (aAdjustment = 1 ->
   forall l pos, l ∈ ls -> position_at m l = Some pos -> pos < SIZE_MAX bits) ->
  exists m',
    AdjustIterators bits fuel p aAdjustment m = Done (tt, m') /\
    forall l1 l2 pos1 pos2,
      l1 ∈ ls -> l2 ∈ ls ->
      position_at m l1 = Some pos1 -> position_at m l2 = Some pos2 ->
      pos1 <= pos2 ->
      exists pos1' pos2',
        position_at m' l1 = Some pos1' /\
        position_at m' l2 = Some pos2' /\
        pos1' <= pos2' /\
        Z.abs (pos1' - pos1) <= 1 /\ Z.abs (pos2' - pos2) <= 1.
Proof.
  intros Hlive Hfuel Hrange Hp Hadj Hmax. eexists.
  split; [by apply AdjustIterators_run with (ls := ls)|].
  intros l1 l2 pos1 pos2 Hl1 Hl2 Hpos1 Hpos2 Hle.
  destruct (live_object m ls l1 Hlive Hl1) as [it1 Hit1].
  destruct (live_object m ls l2 Hlive Hl2) as [it2 Hit2].
  pose proof (in_range_object bits m ls l1 it1 Hrange Hl1 Hit1) as Hr1.
  pose proof (in_range_object bits m ls l2 it2 Hrange Hl2 Hit2) as Hr2.
  rewrite (position_at_object m l1 it1 Hit1) in Hpos1. injection Hpos1 as <-.
  rewrite (position_at_object m l2 it2 Hit2) in Hpos2. injection Hpos2 as <-.
  rewrite !position_update_all by done. rewrite Hit1, Hit2. simpl.
  eexists. eexists. split; [done|]. split; [done|].
  destruct Hadj as [-> | ->].
  - assert (mPosition it1 < SIZE_MAX bits) as Hm1.
    { apply (Hmax eq_refl l1); [done|]. by apply position_at_object. }
    assert (mPosition it2 < SIZE_MAX bits) as Hm2.
    { apply (Hmax eq_refl l2); [done|]. by apply position_at_object. }
    rewrite !adjust_one_inc by done. simpl.
    unfold is_index, SIZE_MAX in *. split_comparisons; lia.
  - unfold is_index in Hp.
    rewrite !adjust_one_dec by (done || lia). simpl.
    unfold is_index in *. split_comparisons; lia.
Qed.

(** * Further properties of the classification predicates *)

Lemma TestZeroToNine_range_test (c : ascii) :
  TestZeroToNine c = (48 <=? nat_of_ascii c)%nat && (nat_of_ascii c <=? 57)%nat.
Proof.
  destruct c as [[|] [|] [|] [|] [|] [|] [|] [|]]; vm_compute; reflexivity.
Qed.

(** X10. The predicates are nested as their names say, on all 256 values
    of a character: what [TestCRLF] accepts [TestCRLFTab] accepts, what
    [TestCRLFTab] accepts [TestWhitespace] accepts, and [TestZeroToNine]
    accepts nothing that [TestWhitespace] accepts. *)
Theorem ASCII_predicates_nested (c : ascii) :
  (TestCRLF c = true -> TestCRLFTab c = true) /\
  (TestCRLFTab c = true -> TestWhitespace c = true) /\
  (TestZeroToNine c = true -> TestWhitespace c = false).
Proof.
  destruct c as [[|] [|] [|] [|] [|] [|] [|] [|]]; vm_compute;
    repeat split; intros; congruence.
Qed.

(** X11. The ten comparisons of [TestZeroToNine] amount to a range test:
    it accepts a character exactly when its code lies between 48 (the
    digit 0) and 57 (the digit 9). *)
Theorem TestZeroToNine_is_range (c : ascii) :
  TestZeroToNine c = true <-> (48 <= nat_of_ascii c <= 57)%nat.
Proof.
  rewrite TestZeroToNine_range_test, andb_true_iff, !Nat.leb_le. done.
Qed.

(** X12. None of the four predicates accepts a character outside ASCII:
    for a code of 128 or more all of them answer false, so a table of 128
    entries holds every character they accept. *)
Theorem ASCII_predicates_reject_high_codes (c : ascii) :
  (128 <= nat_of_ascii c)%nat ->
  TestWhitespace c = false /\ TestCRLF c = false /\
  TestCRLFTab c = false /\ TestZeroToNine c = false.
Proof.
  intros H. apply Nat.leb_le in H. revert H.
  destruct c as [[|] [|] [|] [|] [|] [|] [|] [|]]; vm_compute;
    intros H; repeat split; congruence.
Qed.

(** * The further properties at sample stores *)

Lemma three_cursors_below_SIZE_MAX :
  forall l pos, l ∈ [3; 2; 1]%positive ->
    position_at three_cursors l = Some pos -> pos < SIZE_MAX 64.
Proof.
  intros l pos Hl Hpos. unfold SIZE_MAX.
  apply elem_of_cons in Hl as [->|Hl]; [injection Hpos as <-; by vm_compute|].
  apply elem_of_cons in Hl as [->|Hl]; [injection Hpos as <-; by vm_compute|].
  apply list_elem_of_singleton in Hl as ->. injection Hpos as <-. by vm_compute.
Defined.

Lemma operations_identity_iff_witness :
  (AdjustIterators 64 3 4 1 three_cursors = Done (tt, three_cursors) <->
   forall l pos, l ∈ [3; 2; 1]%positive ->
     position_at three_cursors l = Some pos -> pos <= 4) /\
  (ClearIterators 3 three_cursors = Done (tt, three_cursors) <->
   forall l, l ∈ [3; 2; 1]%positive -> position_at three_cursors l = Some 0).
Proof.
  apply (operations_identity_iff 64 3 4 1 three_cursors [3; 2; 1]%positive).
  - reflexivity.
  - simpl. lia.
  - left. reflexivity.
Defined.

Lemma AdjustIterators_wraps_at_SIZE_MAX_witness :
  exists m',
    AdjustIterators 64 1 0 1 cursor_at_SIZE_MAX = Done (tt, m') /\
    position_at m' 1%positive = Some 0.
Proof.
  apply (AdjustIterators_wraps_at_SIZE_MAX 64 1 0 cursor_at_SIZE_MAX
           [1%positive] 1%positive).
  - reflexivity.
  - simpl. lia.
  - apply list_elem_of_singleton. reflexivity.
  - reflexivity.
  - reflexivity.
Defined.

Lemma operations_keep_positions_in_range_witness :
  exists ma mc,
    AdjustIterators 64 3 1 1 three_cursors = Done (tt, ma) /\
    ClearIterators 3 three_cursors = Done (tt, mc) /\
    (positions_in_range 64 three_cursors [3; 2; 1]%positive ->
     positions_in_range 64 ma [3; 2; 1]%positive) /\
    positions_in_range 64 mc [3; 2; 1]%positive.
Proof.
  apply (operations_keep_positions_in_range 64 3 1 1 three_cursors
           [3; 2; 1]%positive).
  - reflexivity.
  - simpl. lia.
  - left. reflexivity.
Defined.

Lemma ClearIterators_absorbs_AdjustIterators_witness :
  exists ma mc,
    AdjustIterators 64 3 1 1 three_cursors = Done (tt, ma) /\
    ClearIterators 3 ma = Done (tt, mc) /\
    ClearIterators 3 three_cursors = Done (tt, mc).
Proof.
  apply (ClearIterators_absorbs_AdjustIterators 64 3 1 1 three_cursors
           [3; 2; 1]%positive).
  - reflexivity.
  - simpl. lia.
  - left. reflexivity.
Defined.

(** Removal and insertion at 1: the cursor at 2 ends at 1, the others stay. *)
Lemma AdjustIterators_decrement_then_increment_witness :
  exists m1 m2,
    AdjustIterators 64 3 1 (-1) three_cursors = Done (tt, m1) /\
    AdjustIterators 64 3 1 1 m1 = Done (tt, m2) /\
    forall l, l ∈ [3; 2; 1]%positive ->
      exists pos,
        position_at three_cursors l = Some pos /\
        position_at m2 l = Some (if pos =? 1 + 1 then 1 else pos).
Proof.
  apply (AdjustIterators_decrement_then_increment 64 3 1 three_cursors
           [3; 2; 1]%positive).
  - reflexivity.
  - simpl. lia.
  - exact three_cursors_in_range.
  - unfold is_index. by vm_compute.
Defined.

Lemma AdjustIterators_insertions_commute_witness :
  exists m1 m2 m',
    AdjustIterators 64 3 1 1 three_cursors = Done (tt, m1) /\
    AdjustIterators 64 3 (3 + 1) 1 m1 = Done (tt, m') /\
    AdjustIterators 64 3 3 1 three_cursors = Done (tt, m2) /\
    AdjustIterators 64 3 1 1 m2 = Done (tt, m').
Proof.
  apply (AdjustIterators_insertions_commute 64 3 1 3 three_cursors
           [3; 2; 1]%positive).
  - reflexivity.
  - simpl. lia.
  - exact three_cursors_in_range.
  - lia.
  - lia.
  - reflexivity.
Defined.

Lemma AdjustIterators_removals_commute_witness :
  exists m1 m2 m',
    AdjustIterators 64 3 (3 + 1) (-1) three_cursors = Done (tt, m1) /\
    AdjustIterators 64 3 1 (-1) m1 = Done (tt, m') /\
    AdjustIterators 64 3 1 (-1) three_cursors = Done (tt, m2) /\
    AdjustIterators 64 3 3 (-1) m2 = Done (tt, m').
Proof.
  apply (AdjustIterators_removals_commute 64 3 1 3 three_cursors
           [3; 2; 1]%positive).
  - reflexivity.
  - simpl. lia.
  - exact three_cursors_in_range.
  - lia.
  - lia.
  - reflexivity.
Defined.

Lemma AdjustIterators_keeps_order_witness :
  exists m',
    AdjustIterators 64 3 1 1 three_cursors = Done (tt, m') /\
    forall l1 l2 pos1 pos2,
      l1 ∈ [3; 2; 1]%positive -> l2 ∈ [3; 2; 1]%positive ->
      position_at three_cursors l1 = Some pos1 ->
      position_at three_cursors l2 = Some pos2 ->
      pos1 <= pos2 ->
      exists pos1' pos2',
        position_at m' l1 = Some pos1' /\
        position_at m' l2 = Some pos2' /\
        pos1' <= pos2' /\
        Z.abs (pos1' - pos1) <= 1 /\ Z.abs (pos2' - pos2) <= 1.
Proof.
  apply (AdjustIterators_keeps_order 64 3 1 1 three_cursors [3; 2; 1]%positive).
  - reflexivity.
  - simpl. lia.
  - exact three_cursors_in_range.
  - unfold is_index. by vm_compute.
  - left. reflexivity.
  - intros _. exact three_cursors_below_SIZE_MAX.
Defined.

Lemma ASCII_predicates_reject_high_codes_witness :
  TestWhitespace "200" = false /\ TestCRLF "200" = false /\
  TestCRLFTab "200" = false /\ TestZeroToNine "200" = false.
Proof.
  apply (ASCII_predicates_reject_high_codes "200"%char).
  apply Nat.leb_le. reflexivity.
Defined.
